(** * Kord: pitch spelling, pitch arithmetic and note/octave parsing

    A shallow embedding of [src/named_pitch.rs], [src/core/parser.rs] and the
    note/chord wrappers of [src/wasm.rs].  Strings are Rust [&str]s, i.e. UTF-8
    byte sequences, modelled as [String.string] (one [ascii] per byte).  A Rust
    computation that may panic is modelled by the [outcome] type. *)

From Stdlib Require Import ZArith List String Ascii Bool Lia Permutation.
Import ListNotations.
Open Scope string_scope.
Open Scope Z_scope.

(** ** Rust computations: a returned value or a panic with its message *)

Inductive outcome (A : Type) : Type :=
| Returned : A -> outcome A
| Panic : string -> outcome A.
Arguments Returned {A} _.
Arguments Panic {A} _%_string.

(** ** [Pitch] (the 12 intrinsic semitone values) *)

(** Modelled from the spec: [src/core/pitch.rs] is absent; the spec's
    PitchClass is one of 12 semitone values, C = 0 up to B = 11. *)
Inductive Pitch : Type :=
| PC | PCSharp | PD | PDSharp | PE | PF | PFSharp | PG | PGSharp | PA | PASharp | PB.

Definition semitone (p : Pitch) : Z :=
  match p with
  | PC => 0 | PCSharp => 1 | PD => 2 | PDSharp => 3 | PE => 4 | PF => 5
  | PFSharp => 6 | PG => 7 | PGSharp => 8 | PA => 9 | PASharp => 10 | PB => 11
  end.

(** ** [NamedPitch] (src/named_pitch.rs, the enum in declaration order) *)

Inductive NamedPitch : Type :=
| FTripleFlat | CTripleFlat | GTripleFlat | DTripleFlat | ATripleFlat | ETripleFlat | BTripleFlat
| FDoubleFlat | CDoubleFlat | GDoubleFlat | DDoubleFlat | ADoubleFlat | EDoubleFlat | BDoubleFlat
| FFlat | CFlat | GFlat | DFlat | AFlat | EFlat | BFlat
| F | C | G | D | A | E | B
| FSharp | CSharp | GSharp | DSharp | ASharp | ESharp | BSharp
| FDoubleSharp | CDoubleSharp | GDoubleSharp | DDoubleSharp | ADoubleSharp | EDoubleSharp | BDoubleSharp
| FTripleSharp | CTripleSharp | GTripleSharp | DTripleSharp | ATripleSharp | ETripleSharp | BTripleSharp.

Definition NamedPitch_eqb (p q : NamedPitch) : bool :=
  match p, q with
  | FTripleFlat, FTripleFlat | CTripleFlat, CTripleFlat | GTripleFlat, GTripleFlat
  | DTripleFlat, DTripleFlat | ATripleFlat, ATripleFlat | ETripleFlat, ETripleFlat
  | BTripleFlat, BTripleFlat
  | FDoubleFlat, FDoubleFlat | CDoubleFlat, CDoubleFlat | GDoubleFlat, GDoubleFlat
  | DDoubleFlat, DDoubleFlat | ADoubleFlat, ADoubleFlat | EDoubleFlat, EDoubleFlat
  | BDoubleFlat, BDoubleFlat
  | FFlat, FFlat | CFlat, CFlat | GFlat, GFlat | DFlat, DFlat | AFlat, AFlat
  | EFlat, EFlat | BFlat, BFlat
  | F, F | C, C | G, G | D, D | A, A | E, E | B, B
  | FSharp, FSharp | CSharp, CSharp | GSharp, GSharp | DSharp, DSharp
  | ASharp, ASharp | ESharp, ESharp | BSharp, BSharp
  | FDoubleSharp, FDoubleSharp | CDoubleSharp, CDoubleSharp | GDoubleSharp, GDoubleSharp
  | DDoubleSharp, DDoubleSharp | ADoubleSharp, ADoubleSharp | EDoubleSharp, EDoubleSharp
  | BDoubleSharp, BDoubleSharp
  | FTripleSharp, FTripleSharp | CTripleSharp, CTripleSharp | GTripleSharp, GTripleSharp
  | DTripleSharp, DTripleSharp | ATripleSharp, ATripleSharp | ETripleSharp, ETripleSharp
  | BTripleSharp, BTripleSharp => true
  | _, _ => false
  end.

(** [impl HasLetter for NamedPitch]. *)
Definition letter (p : NamedPitch) : string :=
  match p with
  | FTripleFlat | FDoubleFlat | FFlat | F | FSharp | FDoubleSharp | FTripleSharp => "F"
  | CTripleFlat | CDoubleFlat | CFlat | C | CSharp | CDoubleSharp | CTripleSharp => "C"
  | GTripleFlat | GDoubleFlat | GFlat | G | GSharp | GDoubleSharp | GTripleSharp => "G"
  | DTripleFlat | DDoubleFlat | DFlat | D | DSharp | DDoubleSharp | DTripleSharp => "D"
  | ATripleFlat | ADoubleFlat | AFlat | A | ASharp | ADoubleSharp | ATripleSharp => "A"
  | ETripleFlat | EDoubleFlat | EFlat | E | ESharp | EDoubleSharp | ETripleSharp => "E"
  | BTripleFlat | BDoubleFlat | BFlat | B | BSharp | BDoubleSharp | BTripleSharp => "B"
  end.

(** [impl HasPitch for NamedPitch], arm by arm. *)
Definition pitch (p : NamedPitch) : Pitch :=
  match p with
  | FTripleFlat => PD | CTripleFlat => PA | GTripleFlat => PE | DTripleFlat => PB
  | ATripleFlat => PFSharp | ETripleFlat => PCSharp | BTripleFlat => PGSharp
  | FDoubleFlat => PDSharp | CDoubleFlat => PASharp | GDoubleFlat => PF | DDoubleFlat => PC
  | ADoubleFlat => PG | EDoubleFlat => PD | BDoubleFlat => PA
  | FFlat => PE | CFlat => PB | GFlat => PFSharp | DFlat => PCSharp
  | AFlat => PGSharp | EFlat => PDSharp | BFlat => PASharp
  | F => PF | C => PC | G => PG | D => PD | A => PA | E => PE | B => PB
  | FSharp => PFSharp | CSharp => PCSharp | GSharp => PGSharp | DSharp => PDSharp
  | ASharp => PASharp | ESharp => PF | BSharp => PC
  | FDoubleSharp => PG | CDoubleSharp => PD | GDoubleSharp => PA | DDoubleSharp => PE
  | ADoubleSharp => PB | EDoubleSharp => PFSharp | BDoubleSharp => PCSharp
  | FTripleSharp => PGSharp | CTripleSharp => PDSharp | GTripleSharp => PASharp
  | DTripleSharp => PF | ATripleSharp => PC | ETripleSharp => PG | BTripleSharp => PD
  end.

(** The accidental count a variant's name spells: [TripleFlat] = -3 up to
    [TripleSharp] = +3. *)
Definition accidental (p : NamedPitch) : Z :=
  match p with
  | FTripleFlat | CTripleFlat | GTripleFlat | DTripleFlat | ATripleFlat | ETripleFlat | BTripleFlat => -3
  | FDoubleFlat | CDoubleFlat | GDoubleFlat | DDoubleFlat | ADoubleFlat | EDoubleFlat | BDoubleFlat => -2
  | FFlat | CFlat | GFlat | DFlat | AFlat | EFlat | BFlat => -1
  | F | C | G | D | A | E | B => 0
  | FSharp | CSharp | GSharp | DSharp | ASharp | ESharp | BSharp => 1
  | FDoubleSharp | CDoubleSharp | GDoubleSharp | DDoubleSharp | ADoubleSharp | EDoubleSharp | BDoubleSharp => 2
  | FTripleSharp | CTripleSharp | GTripleSharp | DTripleSharp | ATripleSharp | ETripleSharp | BTripleSharp => 3
  end.

(** The semitone of a natural letter: C = 0, D = 2, E = 4, F = 5, G = 7,
    A = 9, B = 11 (any other string is not a letter [letter] returns). *)
Definition letter_base (l : string) : Z :=
  if String.eqb l "C" then 0
  else if String.eqb l "D" then 2
  else if String.eqb l "E" then 4
  else if String.eqb l "F" then 5
  else if String.eqb l "G" then 7
  else if String.eqb l "A" then 9
  else 11.

(** The pitch a spelling physically denotes: its letter's semitone raised by
    its accidental count, modulo 12. *)
Definition physical_pitch (p : NamedPitch) : Z :=
  (letter_base (letter p) + accidental p) mod 12.

(** [static ALL_PITCHES: [NamedPitch; 49]]. *)
Definition ALL_PITCHES : list NamedPitch :=
  [ FTripleFlat; CTripleFlat; GTripleFlat; DTripleFlat; ATripleFlat; ETripleFlat; BTripleFlat;
    FDoubleFlat; CDoubleFlat; GDoubleFlat; DDoubleFlat; ADoubleFlat; EDoubleFlat; BDoubleFlat;
    FFlat; CFlat; GFlat; DFlat; AFlat; EFlat; BFlat;
    F; C; G; D; A; E; B;
    FSharp; CSharp; GSharp; DSharp; ASharp; ESharp; BSharp;
    FDoubleSharp; CDoubleSharp; GDoubleSharp; DDoubleSharp; ADoubleSharp; EDoubleSharp; BDoubleSharp;
    FTripleSharp; CTripleSharp; GTripleSharp; DTripleSharp; ATripleSharp; ETripleSharp; BTripleSharp ].

(** [Iterator::position]: the index of the first element satisfying [f]. *)
Fixpoint position {T} (f : T -> bool) (l : list T) : option nat :=
  match l with
  | [] => None
  | x :: r => if f x then Some O else option_map S (position f r)
  end.

(** [i8] arithmetic: [as i8] of a small [usize] and the wrapping [+]
    (the release-profile behaviour of an overflowing [i8] addition). *)
Definition wrap_i8 (z : Z) : Z := ((z + 128) mod 256) - 128.

(** Rust's [array[i]]: in bounds the element, otherwise the bounds-check panic. *)
Definition index_array {T} (arr : list T) (i : Z) : outcome T :=
  match nth_error arr (Z.to_nat i) with
  | Some x => Returned x
  | None => Panic "index out of bounds"
  end.

(** [impl Add<i8> for NamedPitch]. *)
Definition named_pitch_add (self : NamedPitch) (rhs : Z) : outcome NamedPitch :=
  match position (fun p => NamedPitch_eqb p self) ALL_PITCHES with
  | None => Panic "called `Option::unwrap()` on a `None` value"
  | Some index =>
      let new_index := wrap_i8 (Z.of_nat index + rhs) in
      if negb ((0 <=? new_index) && (new_index <=? 49)) then Panic "NamedPitch out of range."
      else index_array ALL_PITCHES new_index
  end.

(** ** [Octave] (the variants [octave_str_to_octave] names) *)

Inductive Octave : Type :=
| Zero | One | Two | Three | Four | Five | Six | Seven | Eight | Nine.

Definition octave_value (o : Octave) : Z :=
  match o with
  | Zero => 0 | One => 1 | Two => 2 | Three => 3 | Four => 4
  | Five => 5 | Six => 6 | Seven => 7 | Eight => 8 | Nine => 9
  end.

(** ** [Res<T>]: [anyhow::Result], a value or an error message *)

Inductive Res (T : Type) : Type :=
| Ok : T -> Res T
| Err : string -> Res T.
Arguments Ok {T} _.
Arguments Err {T} _%_string.

(** ** src/core/parser.rs *)

(** The arms of [note_str_to_note]'s [match], in source order.  Each arm's
    [note::X] constant is recorded by its [NamedPitch] [X]. *)
Definition note_str_table : list (string * NamedPitch) :=
  [ ("A", A); ("A#", ASharp); ("A♯", ASharp); ("A##", ADoubleSharp); ("A𝄪", ADoubleSharp);
    ("Ab", AFlat); ("A♭", AFlat); ("Abb", ADoubleFlat); ("A𝄫", ADoubleFlat);
    ("B", B); ("B#", BSharp); ("B♯", BSharp); ("B##", BDoubleSharp); ("B𝄪", BDoubleSharp);
    ("Bb", BFlat); ("B♭", BFlat); ("Bbb", BDoubleFlat); ("B𝄫", BDoubleFlat);
    ("C", C); ("C#", CSharp); ("C♯", CSharp); ("C##", CDoubleSharp); ("C𝄪", CDoubleSharp);
    ("Cb", CFlat); ("C♭", CFlat); ("Cbb", CDoubleFlat); ("C𝄫", CDoubleFlat);
    ("D", D); ("D#", DSharp); ("D♯", DSharp); ("D##", DDoubleSharp); ("D𝄪", DDoubleSharp);
    ("Db", DFlat); ("D♭", DFlat); ("Dbb", DDoubleFlat); ("D𝄫", DDoubleFlat);
    ("E", E); ("E#", ESharp); ("E♯", ESharp); ("E##", EDoubleSharp); ("E𝄪", EDoubleSharp);
    ("Eb", EFlat); ("E♭", EFlat); ("Ebb", EDoubleFlat); ("E𝄫", EDoubleFlat);
    ("F", F); ("F#", FSharp); ("F♯", FSharp); ("F##", FDoubleSharp); ("F𝄪", FDoubleSharp);
    ("Fb", FFlat); ("F♭", FFlat); ("Fbb", FDoubleFlat); ("F𝄫", FDoubleFlat);
    ("G", G); ("G#", GSharp); ("G♯", GSharp); ("G##", GDoubleSharp); ("G𝄪", GDoubleSharp);
    ("Gb", GFlat); ("G♭", GFlat); ("Gbb", GDoubleFlat); ("G𝄫", GDoubleFlat) ].

(** First matching arm of a [match] on a [&str]. *)
Definition match_str {T} (table : list (string * T)) (s : string) : option T :=
  option_map snd (find (fun kv => String.eqb (fst kv) s) table).

(** [pub fn note_str_to_note(note_str: &str) -> Res<Note>]. *)
Definition note_str_to_note (note_str : string) : Res NamedPitch :=
  match match_str note_str_table note_str with
  | Some n => Ok n
  | None => Err "Please use fairly standard notes (e.g., don't use triple sharps / flats)."
  end.

Definition octave_str_table : list (string * Octave) :=
  [ ("0", Zero); ("1", One); ("2", Two); ("3", Three); ("4", Four);
    ("5", Five); ("6", Six); ("7", Seven); ("8", Eight); ("9", Nine) ].

(** [pub fn octave_str_to_octave(note_str: &str) -> Res<Octave>]. *)
Definition octave_str_to_octave (note_str : string) : Res Octave :=
  match match_str octave_str_table note_str with
  | Some o => Ok o
  | None => Err "Please use a valid octave (0 - 9)."
  end.

(** The spellings the claims call supported: a letter A-G followed by no
    accidental, or one of the ASCII forms [#], [##], [b], [bb], or one of the
    glyphs ♯, 𝄪, ♭, 𝄫. *)
Definition letters : list string := ["A"; "B"; "C"; "D"; "E"; "F"; "G"].

Definition accidental_forms : list (string * Z) :=
  [ (""%string, 0); ("#", 1); ("♯", 1); ("##", 2); ("𝄪", 2);
    ("b", -1); ("♭", -1); ("bb", -2); ("𝄫", -2) ].

(** The [NamedPitch] with a given letter and accidental count. *)
Definition spelled (l : string) (acc : Z) : option NamedPitch :=
  find (fun p => String.eqb (letter p) l && Z.eqb (accidental p) acc) ALL_PITCHES.

(** Triple accidentals, in ASCII, glyph and mixed forms. *)
Definition triple_forms : list string :=
  [ "###"; "bbb"; "♯♯♯"; "♭♭♭"; "#𝄪"; "𝄪#"; "♯𝄪"; "𝄪♯"; "##♯"; "♯##";
    "b𝄫"; "𝄫b"; "♭𝄫"; "𝄫♭"; "bb♭"; "♭bb" ].

Definition octave_digits : list (string * Z) :=
  [ ("0", 0); ("1", 1); ("2", 2); ("3", 3); ("4", 4);
    ("5", 5); ("6", 6); ("7", 7); ("8", 8); ("9", 9) ].

(** ** [Note] and [KordNote::add_interval] (src/wasm.rs) *)

(** A [Note]: a [NamedPitch] bound to an [Octave]. *)
Record Note : Type := mkNote { named_pitch : NamedPitch; octave : Octave }.

(** Modelled from the spec: [src/core/note.rs] is absent.  A Note's identity
    is its equal-temperament semitone number, 12 per octave plus its
    letter's natural semitone plus its accidental count (not reduced modulo
    12): the spec's id, from which the frequency [440 * 2^((id - id(A4))/12)]
    is derived, shared by exactly the spellings of one physical pitch.  So
    B♯4 shares its id with C5, not C4. *)
Definition note_id (n : Note) : Z :=
  12 * octave_value (octave n) + letter_base (letter (named_pitch n))
  + accidental (named_pitch n).

Section AddInterval.

(** [Note + Interval] ([impl Add<Interval> for Note], absent from src/).  Its
    Rust output type is [Note], as [add_interval] stores the sum in a [Note]
    field: it returns some [Note] or panics, and no typed error fits that
    type.  Its behaviour is otherwise left open.  An Interval is its signed
    semitone count. *)
Variable note_plus : Note -> Z -> outcome Note.

(** [pub fn add_interval(&self, interval: Interval) -> JsRes<KordNote>]:
    [let note = self.inner + interval; Ok(Self { inner: note })]. *)
Definition add_interval (self : Note) (interval : Z) : outcome (Res Note) :=
  match note_plus self interval with
  | Returned note => Returned (Ok note)
  | Panic m => Panic m
  end.

End AddInterval.

(** The [Octave] of a number 0..9. *)
Definition octave_of (z : Z) : Octave :=
  match z with
  | 0 => Zero | 1 => One | 2 => Two | 3 => Three | 4 => Four
  | 5 => Five | 6 => Six | 7 => Seven | 8 => Eight | _ => Nine
  end.

(** ** Chord Builder ([Chord::chord], absent from src/) *)

(** Modelled from the spec: [Note.add(Interval)] as the spec's section 4.1
    and its error taxonomy state it, on note ids: the transposed id when it
    stays in the supported octave span 0..9 (ids 0..119), otherwise the typed
    failure [InvalidOctaveRange]. *)
Definition note_add (id interval : Z) : Res Z :=
  let s := id + interval in
  if (0 <=? s) && (s <? 120) then Ok s else Err "InvalidOctaveRange".

(** Apply a fallible function to each element, stopping at the first error. *)
Fixpoint res_map {A B} (f : A -> Res B) (l : list A) : Res (list B) :=
  match l with
  | [] => Ok []
  | x :: r =>
      match f x with
      | Err m => Err m
      | Ok y => match res_map f r with Err m => Err m | Ok ys => Ok (y :: ys) end
      end
  end.

(** [Degree] and [Modifier], as [From<Modifier> for KordModifier] lists them. *)
Inductive Degree : Type := Seven_ | Nine_ | Eleven_ | Thirteen_.

Inductive Modifier : Type :=
| Minor | Flat5 | Augmented5 | Major7 | Dominant (d : Degree)
| Flat9 | Sharp9 | Sharp11 | Diminished.

Section Builder.

(** The extensions and the catalog's intervals are not fixed by the spec. *)
Variable Extension : Type.
Variable modifier_intervals : Modifier -> list Z.
Variable extension_interval : Extension -> Z.

Record ChordDescriptor : Type := mkChord {
  root : Z;
  modifiers : list Modifier;
  extensions : list Extension;
  slash : option Z;
  inversion : nat;
  is_crunchy : bool }.

(** [Chord::with_crunchy]. *)
Definition with_crunchy (c : ChordDescriptor) (b : bool) : ChordDescriptor :=
  mkChord (root c) (modifiers c) (extensions c) (slash c) (inversion c) b.

Definition extension_offset (crunchy : bool) (iv : Z) : Z :=
  if crunchy then iv mod 12 else iv.

Fixpoint insert_sorted (x : Z) (l : list Z) : list Z :=
  match l with
  | [] => [x]
  | y :: r => if x <=? y then x :: y :: r else y :: insert_sorted x r
  end.

Fixpoint sort_tones (l : list Z) : list Z :=
  match l with
  | [] => []
  | x :: r => insert_sorted x (sort_tones r)
  end.

(** Raise the lowest tone an octave, [k] times. *)
Fixpoint invert (k : nat) (l : list Z) : list Z :=
  match k, l with
  | O, _ => l
  | S k', [] => []
  | S k', x :: r => invert k' (r ++ [x + 12])
  end.

Definition unsorted_tones (c : ChordDescriptor) : list Z :=
  root c
  :: map (fun iv => root c + iv) (flat_map modifier_intervals (modifiers c))
  ++ map (fun e => root c + extension_offset (is_crunchy c) (extension_interval e))
         (extensions c).

(** The voicing of the Chord Builder on unbounded note ids, with no
    octave-span check: start at the root; each modifier contributes the tones
    of its defining intervals and each extension the tone of its interval;
    the voicing flag places an extension tone in the root's octave
    ("crunchy", dense) or at its full interval (spread); the tones are sorted
    ascending, the lowest [inversion] of them are raised an octave each, and a
    slash note is prepended. *)
Definition chord (c : ChordDescriptor) : list Z :=
  let voiced := invert (inversion c) (sort_tones (unsorted_tones c)) in
  match slash c with
  | Some s => s :: voiced
  | None => voiced
  end.

(** The intervals applied to the root: the modifiers' defining intervals,
    then each extension's interval as the voicing flag places it. *)
Definition tone_intervals (c : ChordDescriptor) : list Z :=
  flat_map modifier_intervals (modifiers c)
  ++ map (fun e => extension_offset (is_crunchy c) (extension_interval e)) (extensions c).

(** [invert] with each octave raise done by [note_add]. *)
Fixpoint invert_checked (k : nat) (l : list Z) : Res (list Z) :=
  match k, l with
  | O, _ => Ok l
  | S k', [] => Ok []
  | S k', x :: r =>
      match note_add x 12 with
      | Err m => Err m
      | Ok x' => invert_checked k' (r ++ [x'])
      end
  end.

(** Modelled from the spec: [build(descriptor)] ([Chord::chord()], absent
    from src/), after the spec's section 4.7, each interval applied by the
    fallible [Note.add] ([note_add]): start at the root; apply each tone
    interval to the root; sort the tones ascending; raise the lowest
    [inversion] tones an octave each; prepend the slash note.  A failing
    [Note.add] fails the whole build with its error.  Notes are their ids. *)
Definition build (c : ChordDescriptor) : Res (list Z) :=
  match res_map (note_add (root c)) (tone_intervals c) with
  | Err m => Err m
  | Ok ts =>
      match invert_checked (inversion c) (sort_tones (root c :: ts)) with
      | Err m => Err m
      | Ok voiced =>
          Ok (match slash c with
              | Some s => s :: voiced
              | None => voiced
              end)
      end
  end.

End Builder.

(** The octave-normalised bit-set of a list of note ids: bit [id mod 12]. *)
Definition pitch_class_set (l : list Z) : Z :=
  fold_right (fun z acc => Z.lor (Z.shiftl 1 (z mod 12)) acc) 0 l.

(** The index [ALL_PITCHES.iter().position(|&p| p == self)]. *)
Definition pitch_index (p : NamedPitch) : option nat :=
  position (fun q => NamedPitch_eqb q p) ALL_PITCHES.

(** Every supported spelling with the [NamedPitch] of its letter and
    accidental count. *)
Definition supported_spellings : list (string * option NamedPitch) :=
  flat_map (fun l => map (fun a => ((l ++ fst a)%string, spelled l (snd a))) accidental_forms)
           letters.

(** The pitch class of a note id. *)
Definition pitch_class (z : Z) : Z := z mod 12.

Arguments root {Extension} c.
Arguments modifiers {Extension} c.
Arguments extensions {Extension} c.
Arguments slash {Extension} c.
Arguments inversion {Extension} c.
Arguments is_crunchy {Extension} c.
Arguments with_crunchy {Extension} c b.
Arguments chord {Extension} modifier_intervals extension_interval c.
Arguments unsorted_tones {Extension} modifier_intervals extension_interval c.
Arguments tone_intervals {Extension} modifier_intervals extension_interval c.
Arguments build {Extension} modifier_intervals extension_interval c.


(** [impl HasStaticName for NamedPitch]: the display name, with the glyphs
    ♯, ♭, 𝄪 and 𝄫 (triples as single-plus-double glyph pairs). *)
Definition static_name (p : NamedPitch) : string :=
  match p with
  | FTripleFlat => "F♭𝄫" | CTripleFlat => "C♭𝄫" | GTripleFlat => "G♭𝄫" | DTripleFlat => "D♭𝄫"
  | ATripleFlat => "A♭𝄫" | ETripleFlat => "E♭𝄫" | BTripleFlat => "B♭𝄫"
  | FDoubleFlat => "F𝄫" | CDoubleFlat => "C𝄫" | GDoubleFlat => "G𝄫" | DDoubleFlat => "D𝄫"
  | ADoubleFlat => "A𝄫" | EDoubleFlat => "E𝄫" | BDoubleFlat => "B𝄫"
  | FFlat => "F♭" | CFlat => "C♭" | GFlat => "G♭" | DFlat => "D♭"
  | AFlat => "A♭" | EFlat => "E♭" | BFlat => "B♭"
  | F => "F" | C => "C" | G => "G" | D => "D" | A => "A" | E => "E" | B => "B"
  | FSharp => "F♯" | CSharp => "C♯" | GSharp => "G♯" | DSharp => "D♯"
  | ASharp => "A♯" | ESharp => "E♯" | BSharp => "B♯"
  | FDoubleSharp => "F𝄪" | CDoubleSharp => "C𝄪" | GDoubleSharp => "G𝄪" | DDoubleSharp => "D𝄪"
  | ADoubleSharp => "A𝄪" | EDoubleSharp => "E𝄪" | BDoubleSharp => "B𝄪"
  | FTripleSharp => "F♯𝄪" | CTripleSharp => "C♯𝄪" | GTripleSharp => "G♯𝄪" | DTripleSharp => "D♯𝄪"
  | ATripleSharp => "A♯𝄪" | ETripleSharp => "E♯𝄪" | BTripleSharp => "B♯𝄪"
  end.

(** The letters in the order each row of [ALL_PITCHES] lists them
    (F C G D A E B, a chain of fifths). *)
Definition letter_of_rank (r : Z) : string :=
  match r with
  | 0 => "F" | 1 => "C" | 2 => "G" | 3 => "D" | 4 => "A" | 5 => "E" | _ => "B"
  end.

Definition letter_rank (l : string) : Z :=
  if String.eqb l "F" then 0
  else if String.eqb l "C" then 1
  else if String.eqb l "G" then 2
  else if String.eqb l "D" then 3
  else if String.eqb l "A" then 4
  else if String.eqb l "E" then 5
  else 6.

(** * Properties *)

(** ** Pitch spelling *)

Lemma semitone_pitch_physical : forall p, semitone (pitch p) = physical_pitch p.
Proof. destruct p; reflexivity. Qed.

Lemma accidental_range : forall p, -3 <= accidental p <= 3.
Proof. destruct p; simpl; lia. Qed.

(** C3: for each of the 49 spellings, [pitch()]'s semitone is the letter's
    natural semitone plus the accidental count (-3..+3), modulo 12. *)
Theorem pitch_is_letter_plus_accidental :
  forall p : NamedPitch,
    -3 <= accidental p <= 3 /\
    semitone (pitch p) = (letter_base (letter p) + accidental p) mod 12.
Proof.
  intro p. split; [apply accidental_range | apply semitone_pitch_physical].
Qed.

(** ** [NamedPitch + i8] *)

Lemma pitch_index_some : forall p, exists i, pitch_index p = Some i /\ (i < 49)%nat.
Proof. destruct p; (eexists; split; [reflexivity | lia]). Qed.

(** C10: in the [ALL_PITCHES] order, [+ 7] keeps the letter and raises the
    pitch one semitone for every spelling at position up to 41, and [+ 0]
    returns every one of the 49 spellings unchanged. *)
Theorem add_seven_raises_accidental :
  (forall (p : NamedPitch) (i : nat),
     pitch_index p = Some i -> (i <= 41)%nat ->
     exists q, named_pitch_add p 7 = Returned q /\
               letter q = letter p /\
               semitone (pitch q) = (semitone (pitch p) + 1) mod 12) /\
  (forall p : NamedPitch, named_pitch_add p 0 = Returned p).
Proof.
  split.
  - intros p i Hi Hle.
    destruct p; cbv in Hi; injection Hi as <-; try lia.
    all: eexists; split; [reflexivity | split; reflexivity].
  - destruct p; reflexivity.
Qed.

Lemma add_seven_raises_accidental_witness :
  pitch_index C = Some 22%nat /\
  (exists q, named_pitch_add C 7 = Returned q /\
             letter q = letter C /\
             semitone (pitch q) = (semitone (pitch C) + 1) mod 12) /\
  named_pitch_add BTripleSharp 0 = Returned BTripleSharp.
Proof.
  split; [reflexivity |]. split.
  - apply (proj1 add_seven_raises_accidental C 22%nat); [reflexivity | lia].
  - apply (proj2 add_seven_raises_accidental).
Defined.

(** C9: the guard [(0..=49).contains(&new_index)] admits 49, one past the
    last index of the 49-element [ALL_PITCHES]: [BTripleSharp + 1] passes the
    guard and panics on the array bounds check instead. *)
Theorem add_guard_admits_index_49 :
  pitch_index BTripleSharp = Some 48%nat /\
  wrap_i8 (48 + 1) = 49 /\
  named_pitch_add BTripleSharp 1 = Panic "index out of bounds".
Proof. repeat split; reflexivity. Qed.

(** ** Octave parsing *)

Lemma match_str_in : forall {T} (t : list (string * T)) s v,
  match_str t s = Some v -> In (s, v) t.
Proof.
  unfold match_str. intros T t s v H.
  destruct (find (fun kv => String.eqb (fst kv) s) t) as [[k w]|] eqn:Hf;
    simpl in H; [| discriminate].
  injection H as ->.
  pose proof (find_some _ _ Hf) as [Hin Heq]. simpl in Heq.
  apply String.eqb_eq in Heq. subst k. exact Hin.
Qed.

Lemma octave_value_inj : forall o o', octave_value o = octave_value o' -> o = o'.
Proof. destruct o, o'; simpl; congruence. Qed.

(** C8: [octave_str_to_octave] returns [Ok o] exactly on the ten digit
    strings "0".."9", with [o] the octave of that digit, and a typed [Err] on
    every other string (the function is total: it has no panicking path). *)
Theorem octave_str_to_octave_digits :
  forall s : string,
    (forall o, octave_str_to_octave s = Ok o <-> In (s, octave_value o) octave_digits) /\
    ((forall d, ~ In (s, d) octave_digits) ->
     exists msg, octave_str_to_octave s = Err msg).
Proof.
  intro s. split.
  - intro o. split.
    + unfold octave_str_to_octave.
      destruct (match_str octave_str_table s) as [o'|] eqn:Hm; [| discriminate].
      intro Heq. injection Heq as <-. apply match_str_in in Hm.
      simpl in Hm.
      repeat (destruct Hm as [Hm|Hm]; [injection Hm as <- <-; simpl; tauto |]).
      destruct Hm.
    + intro Hin. simpl in Hin.
      repeat (destruct Hin as [Hin|Hin];
              [injection Hin as <- Hv;
               match type of Hv with ?z = _ =>
                 change z with (octave_value (octave_of z)) in Hv end;
               apply octave_value_inj in Hv; subst o; reflexivity |]).
      destruct Hin.
  - intro Hnot. unfold octave_str_to_octave.
    destruct (match_str octave_str_table s) as [o|] eqn:Hm; [| eexists; reflexivity].
    exfalso. apply match_str_in in Hm. apply (Hnot (octave_value o)).
    simpl in Hm.
    repeat (destruct Hm as [Hm|Hm]; [injection Hm as <- <-; simpl; tauto |]).
    destruct Hm.
Qed.

(** ** Note parsing *)

Ltac solve_in_list := simpl; repeat first [left; reflexivity | right].

Lemma spelled_correct : forall l a n,
  spelled l a = Some n -> letter n = l /\ accidental n = a.
Proof.
  unfold spelled. intros l a n H.
  apply find_some in H as [_ H].
  apply andb_prop in H as [H1 H2].
  split; [apply String.eqb_eq | apply Z.eqb_eq]; assumption.
Qed.

Lemma supported_in_table : forall s n,
  In (s, Some n) supported_spellings <-> In (s, n) note_str_table.
Proof.
  intros s n. split; intro H.
  - vm_compute in H.
    repeat (destruct H as [H|H]; [injection H as <- <-; solve_in_list |]).
    destruct H.
  - vm_compute in H.
    repeat (destruct H as [H|H]; [injection H as <- <-; solve_in_list |]).
    destruct H.
Qed.

Lemma supported_all_spelled : forall s p, In (s, p) supported_spellings -> p <> None.
Proof.
  intros s p H. vm_compute in H.
  repeat (destruct H as [H|H]; [injection H as <- <-; discriminate |]).
  destruct H.
Qed.

Lemma note_str_table_first_match : forall s n,
  In (s, n) note_str_table -> note_str_to_note s = Ok n.
Proof.
  intros s n H. vm_compute in H.
  repeat (destruct H as [H|H]; [injection H as <- <-; reflexivity |]).
  destruct H.
Qed.

(** C7: [note_str_to_note] returns [Ok] exactly on the supported spellings
    (a letter A-G with no accidental, [#], [##], [b], [bb], ♯, 𝄪, ♭ or 𝄫),
    with the [NamedPitch] of that letter and accidental count, and a typed
    [Err] on every other string, every triple sharp or flat among them; it is
    total, so it never panics. *)
Theorem note_str_to_note_supported :
  (forall s n, note_str_to_note s = Ok n <-> In (s, Some n) supported_spellings) /\
  (forall s p, In (s, p) supported_spellings -> p <> None) /\
  (forall l a n, spelled l a = Some n -> letter n = l /\ accidental n = a) /\
  (forall s, (forall n, ~ In (s, Some n) supported_spellings) ->
             exists msg, note_str_to_note s = Err msg) /\
  (forall l t, In l letters -> In t triple_forms ->
               exists msg, note_str_to_note (l ++ t) = Err msg).
Proof.
  split; [| split; [exact supported_all_spelled | split; [exact spelled_correct | split]]].
  - intros s n. rewrite supported_in_table. split.
    + unfold note_str_to_note.
      destruct (match_str note_str_table s) as [m|] eqn:Hm; [| discriminate].
      intro Heq. injection Heq as <-. apply match_str_in. exact Hm.
    + apply note_str_table_first_match.
  - intros s Hnot. unfold note_str_to_note.
    destruct (match_str note_str_table s) as [m|] eqn:Hm; [| eexists; reflexivity].
    exfalso. apply (Hnot m). apply supported_in_table, match_str_in. exact Hm.
  - intros l t Hl Ht. simpl in Hl, Ht.
    repeat (destruct Hl as [Hl|Hl]; [subst l;
      repeat (destruct Ht as [Ht|Ht]; [subst t; eexists; reflexivity |]);
      destruct Ht |]).
    destruct Hl.
Qed.

(** ** [KordNote::add_interval] *)

(** C2 (as the code has it): [add_interval] has no typed-error path.  For
    every behaviour of [Note + Interval] (a function whose result type is
    [Note]), on every note and interval, in or out of the octave span, it
    returns [Ok] of exactly the note the sum returns, propagates the sum's
    panic if it panics, and never returns an [Err]. *)
Theorem add_interval_never_typed_error :
  forall (note_plus : Note -> Z -> outcome Note) (n : Note) (k : Z),
    (forall msg, add_interval note_plus n k <> Returned (Err msg)) /\
    (forall v, note_plus n k = Returned v -> add_interval note_plus n k = Returned (Ok v)) /\
    (forall msg, note_plus n k = Panic msg -> add_interval note_plus n k = Panic msg).
Proof.
  intros note_plus n k. unfold add_interval.
  repeat split.
  - destruct (note_plus n k); discriminate.
  - intros v ->. reflexivity.
  - intros msg ->. reflexivity.
Qed.

(** C2 counterexample: B9 plus a minor second (one semitone) lands on id
    120, one past the last id of octave 9.  Whatever [Note + Interval] does
    there (it can only return a [Note] or panic), [add_interval] does not
    return a typed error. *)
Lemma add_interval_B9_plus_1_no_typed_error :
  note_id (mkNote B Nine) + 1 = 12 * 10 /\
  (forall (note_plus : Note -> Z -> outcome Note) (msg : string),
     add_interval note_plus (mkNote B Nine) 1 <> Returned (Err msg)).
Proof.
  split; [reflexivity |].
  intros note_plus msg. unfold add_interval.
  destruct (note_plus (mkNote B Nine) 1); discriminate.
Qed.

(** ** Voicing flag of the Chord Builder *)

Lemma insert_sorted_perm : forall x l, Permutation (insert_sorted x l) (x :: l).
Proof.
  intros x l. induction l as [| y r IH]; simpl; [reflexivity |].
  destruct (x <=? y); [reflexivity |].
  rewrite IH. apply perm_swap.
Qed.

Lemma sort_tones_perm : forall l, Permutation (sort_tones l) l.
Proof.
  induction l as [| x r IH]; simpl; [reflexivity |].
  rewrite insert_sorted_perm. apply perm_skip, IH.
Qed.

Lemma pitch_class_octave_up : forall x, pitch_class (x + 12) = pitch_class x.
Proof.
  intro x. unfold pitch_class.
  replace (x + 12) with (x + 1 * 12) by lia. apply Z.mod_add. lia.
Qed.

Lemma invert_pitch_classes : forall k l,
  Permutation (map pitch_class (invert k l)) (map pitch_class l).
Proof.
  induction k as [| k IH]; intros l; simpl; [reflexivity |].
  destruct l as [| x r]; simpl; [reflexivity |].
  rewrite IH, map_app. simpl. rewrite pitch_class_octave_up.
  symmetry. apply Permutation_cons_append.
Qed.

Lemma extension_offset_pitch_class : forall b r iv,
  pitch_class (r + extension_offset b iv) = pitch_class (r + iv).
Proof.
  intros [|] r iv; unfold pitch_class, extension_offset; [| reflexivity].
  apply Z.add_mod_idemp_r. lia.
Qed.

Section VoicingFlag.

Variable Extension : Type.
Variable modifier_intervals : Modifier -> list Z.
Variable extension_interval : Extension -> Z.

Lemma unsorted_tones_pitch_classes : forall c,
  map pitch_class (unsorted_tones modifier_intervals extension_interval c) =
  pitch_class (root c)
  :: map pitch_class (map (fun iv => root c + iv) (flat_map modifier_intervals (modifiers c)))
  ++ map (fun e => pitch_class (root c + extension_interval e)) (extensions c).
Proof.
  intro c. unfold unsorted_tones. simpl. rewrite map_app. f_equal. f_equal.
  rewrite map_map. apply map_ext. intro e. apply extension_offset_pitch_class.
Qed.

Lemma chord_pitch_classes_perm : forall c b,
  Permutation (map pitch_class (chord modifier_intervals extension_interval (with_crunchy c b)))
              (map pitch_class (chord modifier_intervals extension_interval c)).
Proof.
  intros c b. unfold chord. simpl.
  assert (Hv : forall d,
    Permutation (map pitch_class (invert (inversion d)
                   (sort_tones (unsorted_tones modifier_intervals extension_interval d))))
                (map pitch_class (unsorted_tones modifier_intervals extension_interval d))).
  { intro d. rewrite invert_pitch_classes. apply Permutation_map, sort_tones_perm. }
  assert (Hu : Permutation
    (map pitch_class (invert (inversion c)
       (sort_tones (unsorted_tones modifier_intervals extension_interval (with_crunchy c b)))))
    (map pitch_class (invert (inversion c)
       (sort_tones (unsorted_tones modifier_intervals extension_interval c))))).
  { change (inversion c) with (inversion (with_crunchy c b)) at 1.
    rewrite Hv, Hv, !unsorted_tones_pitch_classes. reflexivity. }
  destruct (slash c); simpl; [apply perm_skip |]; exact Hu.
Qed.

End VoicingFlag.

Lemma pitch_class_set_map : forall l,
  pitch_class_set l =
  fold_right (fun p acc => Z.lor (Z.shiftl 1 p) acc) 0 (map pitch_class l).
Proof. induction l as [| x r IH]; simpl; [reflexivity | rewrite IH; reflexivity]. Qed.

Lemma fold_lor_perm : forall l l',
  Permutation l l' ->
  fold_right (fun p acc => Z.lor (Z.shiftl 1 p) acc) 0 l =
  fold_right (fun p acc => Z.lor (Z.shiftl 1 p) acc) 0 l'.
Proof.
  intros l l' H. induction H; simpl.
  - reflexivity.
  - rewrite IHPermutation. reflexivity.
  - rewrite !Z.lor_assoc, (Z.lor_comm (Z.shiftl 1 y)). reflexivity.
  - congruence.
Qed.

(** ** Building with the fallible [Note.add] *)

Lemma note_add_ok : forall r k s, note_add r k = Ok s -> s = r + k.
Proof.
  intros r k s. unfold note_add.
  destruct ((0 <=? r + k) && (r + k <? 120)); intro H;
    [injection H as <-; reflexivity | discriminate H].
Qed.

Lemma res_map_note_add : forall r l ts,
  res_map (note_add r) l = Ok ts -> ts = map (fun iv => r + iv) l.
Proof.
  intros r l. induction l as [| iv l IH]; intros ts H; simpl in H.
  - injection H as <-. reflexivity.
  - destruct (note_add r iv) as [s|m] eqn:Hs; [| discriminate H].
    destruct (res_map (note_add r) l) as [ys|m] eqn:Hr; [| discriminate H].
    injection H as <-. apply note_add_ok in Hs. subst s. simpl.
    f_equal. apply IH. reflexivity.
Qed.

Lemma invert_checked_ok : forall k l v, invert_checked k l = Ok v -> v = invert k l.
Proof.
  induction k as [| k IH]; intros l v H; simpl in H.
  - injection H as <-. reflexivity.
  - destruct l as [| x r]; [injection H as <-; reflexivity |].
    destruct (note_add x 12) as [x'|m] eqn:Hx; [| discriminate H].
    apply note_add_ok in Hx. subst x'. simpl. apply IH. exact H.
Qed.

Section BuildVoicing.

Variable Extension : Type.
Variable modifier_intervals : Modifier -> list Z.
Variable extension_interval : Extension -> Z.

Lemma unsorted_tones_intervals : forall c,
  unsorted_tones modifier_intervals extension_interval c =
  root c :: map (fun iv => root c + iv) (tone_intervals modifier_intervals extension_interval c).
Proof.
  intro c. unfold unsorted_tones, tone_intervals. rewrite map_app, map_map. reflexivity.
Qed.

(** A build that succeeds is the unbounded voicing [chord]. *)
Lemma build_chord : forall c l,
  build modifier_intervals extension_interval c = Ok l ->
  l = chord modifier_intervals extension_interval c.
Proof.
  intros c l H. unfold build in H. unfold chord.
  destruct (res_map (note_add (root c)) (tone_intervals modifier_intervals extension_interval c))
    as [ts|m] eqn:Ht; [| discriminate H].
  apply res_map_note_add in Ht. subst ts.
  rewrite unsorted_tones_intervals.
  destruct (invert_checked (inversion c) _) as [v|m] eqn:Hv; [| discriminate H].
  apply invert_checked_ok in Hv. subst v.
  injection H as <-. reflexivity.
Qed.

End BuildVoicing.




(** ** Examples *)

Example add_C_7 : named_pitch_add C 7 = Returned CSharp.
Proof. reflexivity. Qed.

Example E_sharp_is_F : pitch ESharp = pitch F /\ physical_pitch ESharp = physical_pitch F.
Proof. split; reflexivity. Qed.

Example B_sharp_4_is_C_5 :
  note_id (mkNote BSharp Four) = note_id (mkNote C Five) /\
  note_id (mkNote BSharp Four) <> note_id (mkNote C Four).
Proof. split; [reflexivity | discriminate]. Qed.

Example add_BTripleSharp_2 : named_pitch_add BTripleSharp 2 = Panic "NamedPitch out of range.".
Proof. reflexivity. Qed.

Example parse_examples :
  note_str_to_note "B𝄫" = Ok BDoubleFlat /\
  note_str_to_note "Bbb" = Ok BDoubleFlat /\
  (exists m, note_str_to_note "C###" = Err m) /\
  octave_str_to_octave "7" = Ok Seven /\
  (exists m, octave_str_to_octave "10" = Err m).
Proof. repeat split; try (eexists; reflexivity); reflexivity. Qed.

(** ** The [ALL_PITCHES] table *)

Lemma nth_all_pitches_index : forall j q,
  nth_error ALL_PITCHES j = Some q -> pitch_index q = Some j.
Proof.
  intros j q H.
  do 49 (destruct j as [| j]; [cbn in H; injection H as <-; reflexivity |]).
  destruct j; cbn in H; discriminate H.
Qed.

Lemma pitch_index_nth : forall p i,
  pitch_index p = Some i -> nth_error ALL_PITCHES i = Some p.
Proof. intros p i H. destruct p; cbv in H; injection H as <-; reflexivity. Qed.

Lemma pitch_index_lt : forall p i, pitch_index p = Some i -> (i < 49)%nat.
Proof. intros p i H. destruct p; cbv in H; injection H as <-; lia. Qed.

(** The row-and-column layout: entry [j] has letter [j mod 7] of F C G D A E
    B, accidental [j / 7 - 3], and lies [7 j] semitones (mod 12) above D. *)
Lemma nth_all_pitches_layout : forall j q,
  nth_error ALL_PITCHES j = Some q ->
  semitone (pitch q) = (7 * Z.of_nat j + 2) mod 12 /\
  letter q = letter_of_rank (Z.of_nat j mod 7) /\
  accidental q = Z.of_nat j / 7 - 3.
Proof.
  intros j q H.
  do 49 (destruct j as [| j]; [cbn in H; injection H as <-; repeat split; reflexivity |]).
  destruct j; cbn in H; discriminate H.
Qed.

Lemma wrap_i8_small : forall z, -128 <= z <= 127 -> wrap_i8 z = z.
Proof. intros z Hz. unfold wrap_i8. rewrite Z.mod_small by lia. lia. Qed.

Lemma wrap_i8_big : forall z, 128 <= z <= 255 -> wrap_i8 z = z - 256.
Proof.
  intros z Hz. unfold wrap_i8.
  replace (z + 128) with ((z - 128) + 1 * 256) by lia.
  rewrite Z.mod_add, Z.mod_small by lia. lia.
Qed.

Lemma named_pitch_add_unfold : forall p i k,
  pitch_index p = Some i ->
  named_pitch_add p k =
  (if negb ((0 <=? wrap_i8 (Z.of_nat i + k)) && (wrap_i8 (Z.of_nat i + k) <=? 49))
   then Panic "NamedPitch out of range."
   else index_array ALL_PITCHES (wrap_i8 (Z.of_nat i + k))).
Proof.
  intros p i k H. unfold named_pitch_add.
  change (position (fun q => NamedPitch_eqb q p) ALL_PITCHES) with (pitch_index p).
  rewrite H. reflexivity.
Qed.

Lemma guard_true : forall w, 0 <= w <= 49 -> negb ((0 <=? w) && (w <=? 49)) = false.
Proof.
  intros w Hw. replace (0 <=? w) with true by (symmetry; apply Z.leb_le; lia).
  replace (w <=? 49) with true by (symmetry; apply Z.leb_le; lia). reflexivity.
Qed.

Lemma guard_false : forall w, w < 0 \/ 49 < w -> negb ((0 <=? w) && (w <=? 49)) = true.
Proof.
  intros w Hw. destruct Hw as [Hw | Hw].
  - replace (0 <=? w) with false by (symmetry; apply Z.leb_gt; lia). reflexivity.
  - replace (w <=? 49) with false by (symmetry; apply Z.leb_gt; lia).
    rewrite andb_false_r. reflexivity.
Qed.

Lemma named_pitch_add_in_range : forall p i k,
  pitch_index p = Some i -> 0 <= Z.of_nat i + k <= 48 ->
  exists q, nth_error ALL_PITCHES (Z.to_nat (Z.of_nat i + k)) = Some q /\
            named_pitch_add p k = Returned q.
Proof.
  intros p i k H Hs.
  rewrite (named_pitch_add_unfold p i k H), wrap_i8_small by lia.
  rewrite guard_true by lia. unfold index_array.
  destruct (nth_error ALL_PITCHES (Z.to_nat (Z.of_nat i + k))) as [q|] eqn:Hn.
  - exists q. split; reflexivity.
  - apply nth_error_None in Hn. simpl in Hn. lia.
Qed.

Lemma named_pitch_add_returned : forall p i k q,
  pitch_index p = Some i -> -128 <= k <= 127 ->
  named_pitch_add p k = Returned q ->
  0 <= Z.of_nat i + k <= 48 /\ nth_error ALL_PITCHES (Z.to_nat (Z.of_nat i + k)) = Some q.
Proof.
  intros p i k q H Hk Hr.
  pose proof (pitch_index_lt p i H) as Hi.
  rewrite (named_pitch_add_unfold p i k H) in Hr.
  destruct (Z_le_gt_dec (Z.of_nat i + k) 127) as [Hle | Hgt].
  - rewrite wrap_i8_small in Hr by lia.
    destruct (Z_le_gt_dec 0 (Z.of_nat i + k)) as [H0 | H0];
      [| rewrite guard_false in Hr by lia; discriminate].
    destruct (Z_le_gt_dec (Z.of_nat i + k) 49) as [H49 | H49];
      [| rewrite guard_false in Hr by lia; discriminate].
    rewrite guard_true in Hr by lia. unfold index_array in Hr.
    destruct (nth_error ALL_PITCHES (Z.to_nat (Z.of_nat i + k))) as [q'|] eqn:Hn;
      [| discriminate].
    injection Hr as <-.
    assert (Hlt : (Z.to_nat (Z.of_nat i + k) < List.length ALL_PITCHES)%nat)
      by (apply nth_error_Some; rewrite Hn; discriminate).
    simpl in Hlt.
    split; [lia | reflexivity].
  - rewrite wrap_i8_big, guard_false in Hr by lia. discriminate.
Qed.

(** ALL_PITCHES lists each of the 49 spellings exactly once, so the
    [position(..).unwrap()] in [NamedPitch + i8] never panics. *)
Theorem all_pitches_enumerates_named_pitch :
  List.length ALL_PITCHES = 49%nat /\ NoDup ALL_PITCHES /\
  (forall p, In p ALL_PITCHES) /\
  (forall p, exists i, pitch_index p = Some i /\ nth_error ALL_PITCHES i = Some p).
Proof.
  split; [reflexivity | split; [| split]].
  - apply NoDup_nth_error. intros i j Hi Heq.
    destruct (nth_error ALL_PITCHES i) as [q|] eqn:Hq;
      [| apply nth_error_None in Hq; lia].
    symmetry in Heq.
    pose proof (nth_all_pitches_index _ _ Hq) as H1.
    pose proof (nth_all_pitches_index _ _ Heq) as H2. congruence.
  - intro p. destruct (pitch_index_some p) as [i [Hi _]].
    apply (nth_error_In _ i), pitch_index_nth, Hi.
  - intro p. destruct (pitch_index_some p) as [i [Hi _]].
    exists i. split; [exact Hi | apply pitch_index_nth, Hi].
Qed.

(** The position of a spelling in ALL_PITCHES is 7 times its accidental
    count (from -3) plus its letter's rank in F C G D A E B; hence letter and
    accidental together determine the spelling. *)
Theorem pitch_index_layout :
  (forall p, pitch_index p = Some (Z.to_nat (7 * (accidental p + 3) + letter_rank (letter p)))) /\
  (forall p q, letter p = letter q -> accidental p = accidental q -> p = q).
Proof.
  split.
  - destruct p; reflexivity.
  - intros p q Hl Ha.
    assert (Hp : pitch_index p = pitch_index q).
    { destruct p; cbn in Hl, Ha; destruct q; cbn in Hl, Ha;
        try discriminate; reflexivity. }
    destruct (pitch_index_some p) as [i [Hi _]].
    rewrite Hi in Hp. symmetry in Hp.
    apply pitch_index_nth in Hi, Hp. congruence.
Qed.

(** [NamedPitch + i8], every outcome: with [s] the position of [self] plus
    [rhs], it returns entry [s] of ALL_PITCHES for [0 <= s <= 48], panics on the
    array bound for [s = 49], and takes the explicit "NamedPitch out of range."
    panic otherwise. *)
Theorem named_pitch_add_outcomes :
  forall (p : NamedPitch) (i : nat) (k : Z),
    pitch_index p = Some i -> -128 <= k <= 127 ->
    (0 <= Z.of_nat i + k <= 48 ->
       exists q, nth_error ALL_PITCHES (Z.to_nat (Z.of_nat i + k)) = Some q /\
                 named_pitch_add p k = Returned q) /\
    (Z.of_nat i + k = 49 -> named_pitch_add p k = Panic "index out of bounds") /\
    (Z.of_nat i + k < 0 \/ 49 < Z.of_nat i + k ->
       named_pitch_add p k = Panic "NamedPitch out of range.").
Proof.
  intros p i k H Hk.
  pose proof (pitch_index_lt p i H) as Hi.
  split; [| split].
  - apply named_pitch_add_in_range, H.
  - intro H49. rewrite (named_pitch_add_unfold p i k H), H49.
    reflexivity.
  - intro Hout. rewrite (named_pitch_add_unfold p i k H).
    destruct (Z_le_gt_dec (Z.of_nat i + k) 127) as [Hle | Hgt].
    + rewrite wrap_i8_small, guard_false by lia. reflexivity.
    + rewrite wrap_i8_big, guard_false by lia. reflexivity.
Qed.

Lemma named_pitch_add_outcomes_witness :
  pitch_index D = Some 24%nat /\ -128 <= -30 <= 127 /\
  named_pitch_add D (-30) = Panic "NamedPitch out of range." /\
  named_pitch_add D 24 = Returned BTripleSharp.
Proof.
  split; [reflexivity | split; [lia |]].
  destruct (named_pitch_add_outcomes D 24 (-30) eq_refl ltac:(lia)) as [_ [_ H3]].
  split; [apply H3; lia |].
  destruct (named_pitch_add_outcomes D 24 24 eq_refl ltac:(lia)) as [H1 _].
  destruct (H1 ltac:(lia)) as [q [Hn Hr]]. cbn in Hn. injection Hn as <-. exact Hr.
Defined.

(** ** Arithmetic on the line of fifths *)

(** Each step along ALL_PITCHES is a perfect fifth: a sum [p + k] that
    returns lies [7 k] semitones (mod 12) above [p]. *)
Theorem named_pitch_add_fifths :
  forall (p q : NamedPitch) (i : nat) (k : Z),
    pitch_index p = Some i -> -128 <= k <= 127 ->
    named_pitch_add p k = Returned q ->
    semitone (pitch q) = (semitone (pitch p) + 7 * k) mod 12.
Proof.
  intros p q i k H Hk Hr.
  destruct (named_pitch_add_returned p i k q H Hk Hr) as [Hs Hn].
  destruct (nth_all_pitches_layout _ _ Hn) as [Hq _].
  destruct (nth_all_pitches_layout _ _ (pitch_index_nth p i H)) as [Hp _].
  rewrite Hq, Hp, Z2Nat.id by lia.
  rewrite Z.add_mod_idemp_l by lia. f_equal. lia.
Qed.

Lemma named_pitch_add_fifths_witness :
  pitch_index C = Some 22%nat /\ -128 <= 6 <= 127 /\ named_pitch_add C 6 = Returned FSharp /\
  semitone (pitch FSharp) = (semitone (pitch C) + 7 * 6) mod 12.
Proof.
  split; [reflexivity | split; [lia | split; [reflexivity |]]].
  apply (named_pitch_add_fifths C FSharp 22 6); [reflexivity | lia | reflexivity].
Defined.

(** Adding a multiple [7 m] keeps the letter and changes the accidental
    count by [m]. *)
Theorem named_pitch_add_sevens :
  forall (p q : NamedPitch) (i : nat) (m : Z),
    pitch_index p = Some i -> -128 <= 7 * m <= 127 ->
    named_pitch_add p (7 * m) = Returned q ->
    letter q = letter p /\ accidental q = accidental p + m.
Proof.
  intros p q i m H Hk Hr.
  destruct (named_pitch_add_returned p i (7 * m) q H Hk Hr) as [Hs Hn].
  destruct (nth_all_pitches_layout _ _ Hn) as [_ [Lq Aq]].
  destruct (nth_all_pitches_layout _ _ (pitch_index_nth p i H)) as [_ [Lp Ap]].
  rewrite Z2Nat.id in Lq, Aq by lia.
  replace (Z.of_nat i + 7 * m) with (Z.of_nat i + m * 7) in Lq, Aq by lia.
  rewrite Z.mod_add in Lq by lia. rewrite Z.div_add in Aq by lia.
  split; [congruence | lia].
Qed.

Lemma named_pitch_add_sevens_witness :
  pitch_index E = Some 26%nat /\ named_pitch_add E (7 * -2) = Returned EDoubleFlat /\
  letter EDoubleFlat = letter E /\ accidental EDoubleFlat = accidental E + -2.
Proof.
  split; [reflexivity | split; [reflexivity |]].
  apply (named_pitch_add_sevens E EDoubleFlat 26 (-2)); [reflexivity | lia | reflexivity].
Defined.

(** Sums compose: if [p + a] returns [q] and [q + b] returns [r], then
    [p + (a + b)] returns [r]. *)
Theorem named_pitch_add_compose :
  forall (p q r : NamedPitch) (i : nat) (a b : Z),
    pitch_index p = Some i ->
    -128 <= a <= 127 -> -128 <= b <= 127 -> -128 <= a + b <= 127 ->
    named_pitch_add p a = Returned q -> named_pitch_add q b = Returned r ->
    named_pitch_add p (a + b) = Returned r.
Proof.
  intros p q r i a b H Ha Hb Hab Hq Hr.
  destruct (named_pitch_add_returned p i a q H Ha Hq) as [Hs1 Hn1].
  pose proof (nth_all_pitches_index _ _ Hn1) as Hiq.
  destruct (named_pitch_add_returned q _ b r Hiq Hb Hr) as [Hs2 Hn2].
  rewrite Z2Nat.id in Hs2, Hn2 by lia.
  destruct (named_pitch_add_in_range p i (a + b) H ltac:(lia)) as [r' [Hn' Hr']].
  replace (Z.of_nat i + (a + b)) with (Z.of_nat i + a + b) in Hn' by lia.
  rewrite Hr'. congruence.
Qed.

Lemma named_pitch_add_compose_witness :
  named_pitch_add C 7 = Returned CSharp /\ named_pitch_add CSharp (-1) = Returned FSharp /\
  named_pitch_add C (7 + -1) = Returned FSharp.
Proof.
  split; [reflexivity | split; [reflexivity |]].
  apply (named_pitch_add_compose C CSharp FSharp 22 7 (-1));
    first [reflexivity | lia].
Defined.

(** A sum that returns is undone by adding the opposite amount. *)
Theorem named_pitch_add_inverse :
  forall (p q : NamedPitch) (i : nat) (k : Z),
    pitch_index p = Some i -> -128 <= k <= 127 ->
    named_pitch_add p k = Returned q -> named_pitch_add q (- k) = Returned p.
Proof.
  intros p q i k H Hk Hr.
  destruct (named_pitch_add_returned p i k q H Hk Hr) as [Hs Hn].
  pose proof (nth_all_pitches_index _ _ Hn) as Hiq.
  pose proof (pitch_index_lt p i H) as Hi.
  assert (Hid : Z.of_nat (Z.to_nat (Z.of_nat i + k)) = Z.of_nat i + k) by (apply Z2Nat.id; lia).
  destruct (named_pitch_add_in_range q _ (- k) Hiq ltac:(lia)) as [p' [Hn' Hr']].
  rewrite Hid in Hn'.
  replace (Z.of_nat i + k + - k) with (Z.of_nat i) in Hn' by lia.
  rewrite Nat2Z.id, (pitch_index_nth p i H) in Hn'.
  rewrite Hr'. congruence.
Qed.

Lemma named_pitch_add_inverse_witness :
  named_pitch_add G 8 = Returned DSharp /\ named_pitch_add DSharp (- 8) = Returned G.
Proof.
  split; [reflexivity |].
  apply (named_pitch_add_inverse G DSharp 23 8); [reflexivity | lia | reflexivity].
Defined.

(** ** Display names *)

(** Every spelling's display name is distinct, and begins with its letter. *)
Theorem static_name_injective :
  (forall p q, static_name p = static_name q -> p = q) /\
  (forall p, String.prefix (letter p) (static_name p) = true).
Proof.
  split.
  - intros p q H. destruct p, q; try reflexivity; discriminate H.
  - destruct p; reflexivity.
Qed.

(** The parser reads back every display name up to double sharps and flats
    ([note_str_to_note (static_name p) = Ok p]) and refuses the display names
    of the triple spellings. *)
Theorem static_name_parses_back :
  forall p : NamedPitch,
    (-2 <= accidental p <= 2 -> note_str_to_note (static_name p) = Ok p) /\
    (accidental p = -3 \/ accidental p = 3 ->
       exists msg, note_str_to_note (static_name p) = Err msg).
Proof.
  destruct p; cbn [accidental]; split; intro H.
  all: try reflexivity.
  all: try (eexists; reflexivity).
  all: lia.
Qed.

(** The ASCII and glyph accidentals parse alike: [#] as ♯, [##] as 𝄪,
    [b] as ♭ and [bb] as 𝄫, for every letter A-G. *)
Theorem ascii_and_glyph_accidentals_agree :
  forall l, In l letters ->
    note_str_to_note (l ++ "#") = note_str_to_note (l ++ "♯") /\
    note_str_to_note (l ++ "##") = note_str_to_note (l ++ "𝄪") /\
    note_str_to_note (l ++ "b") = note_str_to_note (l ++ "♭") /\
    note_str_to_note (l ++ "bb") = note_str_to_note (l ++ "𝄫").
Proof.
  intros l Hl. simpl in Hl.
  repeat (destruct Hl as [Hl|Hl]; [subst l; repeat split; reflexivity |]).
  destruct Hl.
Qed.

Lemma ascii_and_glyph_accidentals_agree_witness :
  In "G" letters /\ note_str_to_note "G##" = note_str_to_note "G𝄪".
Proof.
  split; [solve_in_list |].
  apply (ascii_and_glyph_accidentals_agree "G"); solve_in_list.
Defined.
